(** * macdivert: the diversion session, its packet queue and the Packet value

    A shallow embedding of [src/macdivert/macdivert.py] (Python 2): the
    [Packet] class, the capture callback registered by
    [DivertHandle.__init__], and the [DivertHandle] methods [closed],
    [close], [__del__], [read], [write], [set_filter], [open] and
    [ipfw_compile_rule].

    The session object is mutable and its methods may raise, so methods
    are computations in a state-and-exception monad over the record of
    the instance attributes.  The native library ([self._lib]), the
    constants of [enum.Defaults] and the accessors of [models.IpHeader]
    are not part of the file; they are interfaces here (type classes),
    and every statement holds for all of their implementations. *)

From Stdlib Require Import ZArith List String Ascii Bool Lia.
From Stdlib Require Import Init.Byte.
Import ListNotations.
Local Open Scope string_scope.
Local Open Scope list_scope.
Local Open Scope Z_scope.

(** ** Python values *)

(** Modelled from the spec: [models.ProcInfo] is imported by the source
    but not defined in it; the callback reads its [pid] and [epid]
    fields only (`processInfo: optional{pid: int32, epid: int32}`). *)
Record ProcInfo := { pid : Z; epid : Z }.

(** The values the four item-accessible attributes of a [Packet] hold.
    Python 2 [str] is a byte string. *)
Inductive pyval :=
| PNone
| PInt (z : Z)
| PStr (s : list byte)
| PProc (p : ProcInfo).

(** Python truth value, as consulted by [not x]: [None], [0] and the
    empty string are false; a ctypes structure has neither
    [__nonzero__] nor [__len__] and is true. *)
Definition truthy (v : pyval) : bool :=
  match v with
  | PNone => false
  | PInt z => negb (z =? 0)
  | PStr s => match s with [] => false | _ :: _ => true end
  | PProc _ => true
  end.

(** Exceptions raised by the code, with their message. [Empty] and
    [ValueError] come from [Queue.Queue.get]. *)
Inductive exn :=
| RuntimeError (msg : string)
| KeyError (msg : string)
| ValueError (msg : string)
| Empty.

(** ** class Packet *)

Record Packet := {
  proc : pyval;
  ip_data : pyval;
  sockaddr : pyval;
  valid : bool;
  flag : pyval
}.

Definition set_proc (p : Packet) (v : pyval) : Packet :=
  {| proc := v; ip_data := ip_data p; sockaddr := sockaddr p;
     valid := valid p; flag := flag p |}.
Definition set_ip_data (p : Packet) (v : pyval) : Packet :=
  {| proc := proc p; ip_data := v; sockaddr := sockaddr p;
     valid := valid p; flag := flag p |}.
Definition set_sockaddr (p : Packet) (v : pyval) : Packet :=
  {| proc := proc p; ip_data := ip_data p; sockaddr := v;
     valid := valid p; flag := flag p |}.
Definition set_valid (p : Packet) (b : bool) : Packet :=
  {| proc := proc p; ip_data := ip_data p; sockaddr := sockaddr p;
     valid := b; flag := flag p |}.
Definition set_flag (p : Packet) (v : pyval) : Packet :=
  {| proc := proc p; ip_data := ip_data p; sockaddr := sockaddr p;
     valid := valid p; flag := v |}.

Module Packet.

(** [Packet.__init__] *)
Definition __init__ : Packet :=
  {| proc := PNone; ip_data := PNone; sockaddr := PNone;
     valid := false; flag := PInt 0 |}.

(** [Packet.__setitem__]: the updated packet, or the [KeyError]. *)
Definition __setitem__ (self : Packet) (key : string) (value : pyval)
  : exn + Packet :=
  if String.eqb key "proc" then inr (set_proc self value)
  else if String.eqb key "ip_data" then inr (set_ip_data self value)
  else if String.eqb key "sockaddr" then inr (set_sockaddr self value)
  else if String.eqb key "flag" then inr (set_flag self value)
  else inl (KeyError ("No suck key: " ++ key)%string).

(** [Packet.__getitem__] *)
Definition __getitem__ (self : Packet) (item : string) : pyval :=
  if String.eqb item "proc" then proc self
  else if String.eqb item "ip_data" then ip_data self
  else if String.eqb item "sockaddr" then sockaddr self
  else if String.eqb item "flag" then flag self
  else PNone.

(** The keys [__setitem__] accepts. *)
Definition known_keys : list string :=
  ["proc"; "ip_data"; "sockaddr"; "flag"].

End Packet.

(** ** The session state and the engine boundary *)

(** A [threading.Thread]; [isAlive] is whether the engine's blocking loop
    is still running in it. *)
Record Thread := { isAlive : bool }.

(** Observable actions, in the order they happen: calls into the native
    library, queue insertions and thread operations. *)
Inductive event :=
| Call_divert_create (port flags : Z)
| Call_divert_set_callback
| Call_divert_activate
| Call_divert_update_ipfw (filter_str : list byte)
| Call_divert_loop_stop
| Call_divert_reinject (data : pyval) (len : Z) (addr : pyval)
| Call_divert_close
| Call_ipfw_compile_rule (port : Z) (rule_str : list byte)
| Queue_put_ev (p : Packet)
| Thread_start (count : Z)
| Thread_join.

(** A [POINTER(c_char)] argument of the callback: the byte found at each
    offset from the address. Slicing a ctypes pointer reads exactly the
    requested offsets. *)
Definition pointer := nat -> byte.

Definition slice (p : pointer) (stop : Z) : list byte :=
  map p (seq 0 (Z.to_nat stop)).

(** [enum.Defaults]: sizes of the buffers exchanged with the engine. *)
Class Defaults := {
  SOCKET_ADDR_SIZE : nat;
  DIVERT_ERRBUF_SIZE : nat;
  IPFW_RULE_SIZE : nat
}.

(** [models.IpHeader]: the two accessors the callback uses, applied to
    the header found at the packet pointer. *)
Class IpHeader := {
  get_header_length : pointer -> Z;
  get_total_length : pointer -> Z
}.

Module Lib.

(** The loaded native library, [self._lib]. Every reply may depend on
    the calls made so far. [ipfw_compile_rule] replies with its status
    and the bytes it wrote to the rule buffer and to the diagnostic
    buffer; [errmsg] is [self._handle[0].errmsg]. *)
Class t := {
  divert_activate : list event -> Z;
  divert_update_ipfw : list event -> list byte -> Z;
  divert_reinject : list event -> pyval -> Z -> pyval -> Z;
  divert_close : list event -> Z;
  ipfw_compile_rule :
    list event -> Z -> list byte -> Z * list byte * list byte;
  errmsg : list event -> string
}.

End Lib.

(** The instance attributes of a [DivertHandle]. [packet_queue] is the
    unbounded [Queue.Queue], oldest item first; [trace] records the
    events so far, oldest first. *)
Record DivertHandle := {
  _port : Z;
  _count : Z;
  _filter : list byte;
  _flags : Z;
  packet_queue : list Packet;
  num_queued : Z;
  thread : option Thread;
  _cleaned : bool;
  trace : list event
}.

Definition with_packet_queue (q : list Packet) (h : DivertHandle) :=
  {| _port := _port h; _count := _count h; _filter := _filter h;
     _flags := _flags h; packet_queue := q; num_queued := num_queued h;
     thread := thread h; _cleaned := _cleaned h; trace := trace h |}.
Definition with_num_queued (n : Z) (h : DivertHandle) :=
  {| _port := _port h; _count := _count h; _filter := _filter h;
     _flags := _flags h; packet_queue := packet_queue h; num_queued := n;
     thread := thread h; _cleaned := _cleaned h; trace := trace h |}.
Definition with_thread (t : option Thread) (h : DivertHandle) :=
  {| _port := _port h; _count := _count h; _filter := _filter h;
     _flags := _flags h; packet_queue := packet_queue h;
     num_queued := num_queued h;
     thread := t; _cleaned := _cleaned h; trace := trace h |}.
Definition with_cleaned (b : bool) (h : DivertHandle) :=
  {| _port := _port h; _count := _count h; _filter := _filter h;
     _flags := _flags h; packet_queue := packet_queue h;
     num_queued := num_queued h;
     thread := thread h; _cleaned := b; trace := trace h |}.
Definition with_trace (tr : list event) (h : DivertHandle) :=
  {| _port := _port h; _count := _count h; _filter := _filter h;
     _flags := _flags h; packet_queue := packet_queue h;
     num_queued := num_queued h;
     thread := thread h; _cleaned := _cleaned h; trace := tr |}.

(** ** The method monad *)

(** How a call ends: it returns, it raises, or (in a run where no other
    thread acts) it waits forever on the empty queue. *)
Inductive outcome (A : Type) :=
| Return (a : A)
| Raise (e : exn)
| Blocked.
Arguments Return {A} a.
Arguments Raise {A} e.
Arguments Blocked {A}.

(** A method: from the attributes before the call to its outcome and the
    attributes after it. Attribute updates made before a [raise] stay. *)
Definition M (A : Type) := DivertHandle -> outcome A * DivertHandle.

Definition ret {A} (a : A) : M A := fun self => (Return a, self).
Definition raise {A} (e : exn) : M A := fun self => (Raise e, self).
Definition bind {A B} (c : M A) (k : A -> M B) : M B :=
  fun self =>
    match c self with
    | (Return a, self') => k a self'
    | (Raise e, self') => (Raise e, self')
    | (Blocked, self') => (Blocked, self')
    end.
Definition attr {A} (f : DivertHandle -> A) : M A :=
  fun self => (Return (f self), self).
Definition assign (f : DivertHandle -> DivertHandle) : M unit :=
  fun self => (Return tt, f self).
Definition emit (e : event) : M unit :=
  assign (fun self => with_trace (trace self ++ [e]) self).

Notation "x <- c1 ;; c2" := (bind c1 (fun x => c2))
  (at level 61, c1 at next level, right associativity).
Notation "c1 ;; c2" := (bind c1 (fun _ => c2))
  (at level 61, right associativity).

(** [for i in range(n): body] *)
Fixpoint for_times (n : nat) (body : M unit) : M unit :=
  match n with
  | O => ret tt
  | S n' => body ;; for_times n' body
  end.
Definition for_range (n : Z) (body : M unit) : M unit :=
  for_times (Z.to_nat n) body.

(** ** Queue.Queue *)

(** [Queue.put] on an unbounded queue: append on the right. *)
Definition Queue_put (p : Packet) : M unit :=
  emit (Queue_put_ev p) ;;
  assign (fun self => with_packet_queue (packet_queue self ++ [p]) self).

(** [Queue.get(block, timeout)]: the wait that its arguments ask for,
    then [_get], which pops the oldest item. With no other thread acting,
    waiting on an empty queue never ends without a timeout and ends in
    [Empty] with one; so the queue is not empty when [_get] is reached,
    and the [[]] case of the last match is never taken. *)
Definition Queue_get (block : bool) (timeout : option Z) : M Packet :=
  q <- attr packet_queue ;;
  (if negb block then
     match q with [] => raise Empty | _ :: _ => ret tt end
   else
     match timeout with
     | None => match q with [] => (fun self => (Blocked, self))
                          | _ :: _ => ret tt end
     | Some t =>
         if t <? 0 then
           raise (ValueError "'timeout' must be a non-negative number")
         else match q with [] => raise Empty | _ :: _ => ret tt end
     end) ;;
  match q with
  | [] => raise Empty
  | item :: rest => assign (with_packet_queue rest) ;; ret item
  end.

(** What the callback receives for one captured packet: [proc_info[0]],
    and the two pointers [ip_data] and [sockaddr]. *)
Record capture := {
  cap_proc_info : ProcInfo;
  cap_ip_data : pointer;
  cap_sockaddr : pointer
}.

(** ctypes buffers: [create_string_buffer(n)] is [n] zero bytes; a call
    that writes [written] into a buffer changes its leading bytes and
    never its size; [.value] is the content before the first NUL. *)
Definition create_string_buffer (n : nat) : list byte := repeat x00 n.

Definition store (buf written : list byte) : list byte :=
  firstn (List.length buf) (written ++ skipn (List.length written) buf).

Fixpoint value (buf : list byte) : list byte :=
  match buf with
  | [] => []
  | b :: rest => if Byte.eqb b x00 then [] else b :: value rest
  end.

(** ** class DivertHandle *)

Section DivertHandle.

Context {defaults : Defaults} {ipheader : IpHeader} {_lib : Lib.t}.

(** A call into the library: it is recorded, and the reply is the one
    the library gives after the calls so far. *)
Definition call {A} (e : event) (reply : list event -> A) : M A :=
  tr <- attr trace ;;
  emit e ;;
  ret (reply tr).

(** The closure [ip_callback] defined in [__init__]. *)
Definition ip_callback (c : capture) : M unit :=
  let packet := Packet.__init__ in
  let header_len := get_header_length (cap_ip_data c) in
  let packet_length := get_total_length (cap_ip_data c) in
  if (packet_length >? 0) && (header_len >? 0) then
    let packet := set_valid packet true in
    let packet :=
      if negb (pid (cap_proc_info c) =? -1)
         || negb (epid (cap_proc_info c) =? -1)
      then set_proc packet (PProc (cap_proc_info c))
      else packet in
    let packet :=
      set_ip_data packet (PStr (slice (cap_ip_data c) packet_length)) in
    let packet :=
      set_sockaddr packet
        (PStr (slice (cap_sockaddr c) (Z.of_nat SOCKET_ADDR_SIZE))) in
    Queue_put packet
  else ret tt.

(** [DivertHandle.__init__], for an already loaded library and an
    already encoded filter: the new instance, or the activation
    error. *)
Definition __init__ (port : Z) (filter_str : list byte) (flags count : Z)
  : outcome unit * DivertHandle :=
  let self :=
    {| _port := port; _count := count; _filter := filter_str;
       _flags := flags; packet_queue := []; num_queued := 0;
       thread := None; _cleaned := false; trace := [] |} in
  (emit (Call_divert_create port flags) ;;
   emit Call_divert_set_callback ;;
   status <- call Call_divert_activate Lib.divert_activate ;;
   if negb (status =? 0) then
     msg <- attr (fun self => Lib.errmsg (trace self)) ;;
     raise (RuntimeError msg)
   else
     assign (with_cleaned false) ;;
     assign (with_thread None)) self.

(** The [eof] property. *)
Definition eof (self : DivertHandle) : bool :=
  (Z.of_nat (List.length (packet_queue self)) =? 0).

(** The [closed] property; it forgets a thread that has finished. *)
Definition closed : M bool :=
  t <- attr thread ;;
  match t with
  | Some th =>
      if negb (isAlive th) then assign (with_thread None) else ret tt
  | None => ret tt
  end ;;
  self <- attr (fun self => self) ;;
  ret (match thread self with None => true | Some _ => false end
       && eof self).

(** [DivertHandle.close] *)
Definition close : M unit :=
  n <- attr num_queued ;;
  for_range n
    (let packet := Packet.__init__ in
     let packet := set_valid packet false in
     Queue_put packet) ;;
  t <- attr thread ;;
  match t with
  | Some th =>
      (if isAlive th then emit Call_divert_loop_stop else ret tt) ;;
      emit Thread_join ;;
      assign (with_thread None)
  | None => ret tt
  end.

(** [DivertHandle.__del__] *)
Definition __del__ : M unit :=
  close ;;
  cleaned <- attr _cleaned ;;
  if negb cleaned then
    assign (with_cleaned true) ;;
    status <- call Call_divert_close Lib.divert_close ;;
    if negb (status =? 0) then
      msg <- attr (fun self => Lib.errmsg (trace self)) ;;
      raise (RuntimeError msg)
    else ret tt
  else ret tt.

(** [DivertHandle.ipfw_compile_rule] *)
Definition ipfw_compile_rule (rule_str : list byte) (port : Z)
  : M (list byte) :=
  let errmsg := create_string_buffer DIVERT_ERRBUF_SIZE in
  let rule_data := create_string_buffer IPFW_RULE_SIZE in
  reply <- call (Call_ipfw_compile_rule port rule_str)
             (fun tr => Lib.ipfw_compile_rule tr port rule_str) ;;
  let '(status, rule_written, err_written) := reply in
  let rule_data := store rule_data rule_written in
  let errmsg := store errmsg err_written in
  if negb (status =? 0) then
    raise (RuntimeError
             ("Error rule: " ++ string_of_list_byte (value errmsg))%string)
  else ret (firstn IPFW_RULE_SIZE rule_data).

(** [DivertHandle.set_filter] *)
Definition set_filter (filter_str : list byte) : M bool :=
  match filter_str with
  | _ :: _ =>
      status <- call (Call_divert_update_ipfw filter_str)
                  (fun tr => Lib.divert_update_ipfw tr filter_str) ;;
      if negb (status =? 0) then
        msg <- attr (fun self => Lib.errmsg (trace self)) ;;
        raise (RuntimeError ("Error rule: " ++ msg)%string)
      else ret true
  | [] => ret false
  end.

(** [DivertHandle.open]: the thread it starts runs the engine loop. *)
Definition open : M unit :=
  f <- attr _filter ;;
  match f with
  | _ :: _ => set_filter f ;; ret tt
  | [] => ret tt
  end ;;
  count <- attr _count ;;
  assign (with_thread (Some {| isAlive := true |})) ;;
  emit (Thread_start count).

(** The engine loop returning on its own (after [count] packets or an
    error): the thread is no longer alive. *)
Definition loop_returns : M unit :=
  t <- attr thread ;;
  match t with
  | Some _ => assign (with_thread (Some {| isAlive := false |}))
  | None => ret tt
  end.

(** [DivertHandle.read(block, timeout)]; [read()] is
    [read true None]. *)
Definition read (block : bool) (timeout : option Z) : M Packet :=
  n <- attr num_queued ;;
  assign (with_num_queued (n + 1)) ;;
  res <- Queue_get block timeout ;;
  n <- attr num_queued ;;
  assign (with_num_queued (n - 1)) ;;
  ret res.

(** [DivertHandle.write]; [None] is a call with Python's [None]. *)
Definition write (packet_obj : option Packet) : M Z :=
  c <- closed ;;
  if c then raise (RuntimeError "Divert handle closed.")
  else
    match packet_obj with
    | None => raise (RuntimeError "Invalid packet data.")
    | Some p =>
        if negb (truthy (sockaddr p)) || negb (truthy (ip_data p)) then
          raise (RuntimeError "Invalid packet data.")
        else
          call (Call_divert_reinject (ip_data p) (-1) (sockaddr p))
            (fun tr =>
               Lib.divert_reinject tr (ip_data p) (-1) (sockaddr p))
    end.

(** ** Runs: sequences of callbacks and of reads *)

(** The engine invoking the callback once per captured packet. *)
Fixpoint deliver (cs : list capture) : M unit :=
  match cs with
  | [] => ret tt
  | c :: rest => ip_callback c ;; deliver rest
  end.

(** Consecutive [read] calls, each with its own arguments; every
    outcome is kept, and a read that raises does not stop the next. *)
Fixpoint reads (args : list (bool * option Z)) (self : DivertHandle)
  : list (outcome Packet) * DivertHandle :=
  match args with
  | [] => ([], self)
  | (block, timeout) :: rest =>
      let (o, self') := read block timeout self in
      let (os, self'') := reads rest self' in
      (o :: os, self'')
  end.

End DivertHandle.

(** ** Vocabulary of the statements *)

Section Vocabulary.

Context {defaults : Defaults} {ipheader : IpHeader} {_lib : Lib.t}.

(** The callback's legality test: total length and header length are
    both positive. *)
Definition legal (c : capture) : Prop :=
  0 < get_total_length (cap_ip_data c) /\
  0 < get_header_length (cap_ip_data c).

(** The payload the callback is meant to keep for a capture. *)
Definition payload_of (c : capture) : list byte :=
  slice (cap_ip_data c) (get_total_length (cap_ip_data c)).

(** The packet [close] enqueues for a pending reader. *)
Definition sentinel : Packet := set_valid Packet.__init__ false.

(** Arguments [Queue.get] accepts: a blocking call has no negative
    timeout. [read()] itself is [(true, None)]. *)
Definition admissible (a : bool * option Z) : Prop :=
  match a with
  | (true, Some t) => 0 <= t
  | _ => True
  end.

(** The events a call added, given the attributes before and after. *)
Definition new_events (before after : DivertHandle) : list event :=
  skipn (List.length (trace before)) (trace after).

(** Any public operation on a session, for statements about what no
    later operation undoes. *)
Inductive op :=
| Op_callback (c : capture)
| Op_loop_returns
| Op_closed
| Op_close
| Op_del
| Op_open
| Op_set_filter (filter_str : list byte)
| Op_compile (rule_str : list byte) (port : Z)
| Op_read (block : bool) (timeout : option Z)
| Op_write (packet_obj : option Packet).

Definition run_op (o : op) (self : DivertHandle) : DivertHandle :=
  match o with
  | Op_callback c => snd (ip_callback c self)
  | Op_loop_returns => snd (loop_returns self)
  | Op_closed => snd (closed self)
  | Op_close => snd (close self)
  | Op_del => snd (__del__ self)
  | Op_open => snd (open self)
  | Op_set_filter f => snd (set_filter f self)
  | Op_compile r p => snd (ipfw_compile_rule r p self)
  | Op_read b t => snd (read b t self)
  | Op_write p => snd (write p self)
  end.

Definition run_ops (os : list op) (self : DivertHandle) : DivertHandle :=
  fold_left (fun s o => run_op o s) os self.

(** "close() ends by releasing the engine-level handle", as a property
    of one call. *)
Definition close_releases_handle (self : DivertHandle) : Prop :=
  In Call_divert_close (new_events self (snd (close self))).


(** What [close] appends to the trace after its sentinels. *)
Definition stop_and_join (t : option Thread) : list event :=
  match t with
  | Some th =>
      (if isAlive th then [Call_divert_loop_stop] else []) ++ [Thread_join]
  | None => []
  end.

(** The packet the callback builds for a legal capture. *)
Definition captured (c : capture) : Packet :=
  {| proc := if (pid (cap_proc_info c) =? -1)
                && (epid (cap_proc_info c) =? -1)
             then PNone else PProc (cap_proc_info c);
     ip_data := PStr (payload_of c);
     sockaddr := PStr (slice (cap_sockaddr c) (Z.of_nat SOCKET_ADDR_SIZE));
     valid := true;
     flag := PInt 0 |}.

(** The attributes after [Queue_put p]. *)
Definition enqueue (p : Packet) (self : DivertHandle) : DivertHandle :=
  with_packet_queue (packet_queue self ++ [p])
    (with_trace (trace self ++ [Queue_put_ev p]) self).

(** A computation that leaves [num_queued] as it found it. *)
Definition keeps_count {A} (c : M A) : Prop :=
  forall self, num_queued (snd (c self)) = num_queued self.

End Vocabulary.

(** ** A concrete engine, for running the model *)

Module Demo.

Definition defaults : Defaults :=
  {| SOCKET_ADDR_SIZE := 16; DIVERT_ERRBUF_SIZE := 256;
     IPFW_RULE_SIZE := 64 |}.

Definition byte_at (p : pointer) (i : nat) : Z :=
  Z.of_N (Byte.to_N (p i)).

(** The IPv4 layout: IHL in the low nibble of byte 0, in 32-bit words;
    total length in bytes 2 and 3, big-endian. *)
Definition ipheader : IpHeader :=
  {| get_header_length := fun p => Z.land (byte_at p 0) 15 * 4;
     get_total_length := fun p => byte_at p 2 * 256 + byte_at p 3 |}.

(** An engine that accepts everything except the empty rule and
    reinjects the whole payload. *)
Definition lib : Lib.t :=
  {| Lib.divert_activate := fun _ => 0;
     Lib.divert_update_ipfw := fun _ _ => 0;
     Lib.divert_reinject := fun _ data _ _ =>
       match data with
       | PStr s => Z.of_nat (List.length s)
       | _ => -1
       end;
     Lib.divert_close := fun _ => 0;
     Lib.ipfw_compile_rule := fun _ _ rule_str =>
       match rule_str with
       | [] => (1, [], list_byte_of_string "empty rule")
       | _ :: _ => (0, rule_str, [])
       end;
     Lib.errmsg := fun _ => "" |}.

(** A 40-byte datagram with a 20-byte header. *)
Definition ip40 : pointer :=
  fun i => match i with
           | 0%nat => x45
           | 3%nat => x28
           | 8%nat => x40
           | 9%nat => x06
           | _ => x00
           end.

(** A 60-byte datagram with a 20-byte header. *)
Definition ip60 : pointer :=
  fun i => match i with
           | 0%nat => x45
           | 3%nat => x3c
           | 9%nat => x11
           | _ => x00
           end.

Definition addr : pointer := fun i => match i with 0%nat => x10 | 1%nat => x02 | _ => x00 end.

Definition cap40 : capture :=
  {| cap_proc_info := {| pid := 312; epid := 312 |};
     cap_ip_data := ip40; cap_sockaddr := addr |}.

Definition cap60 : capture :=
  {| cap_proc_info := {| pid := -1; epid := -1 |};
     cap_ip_data := ip60; cap_sockaddr := addr |}.

(** [DivertHandle(port=0, filter_str="", flags=0, count=-1)] *)
Definition fresh : DivertHandle :=
  snd (@__init__ lib 0 [] 0 (-1)).

(** The same session after [open()]. *)
Definition looping : DivertHandle := snd (@open lib fresh).

(** A looping session with two readers counted as pending. *)
Definition two_pending : DivertHandle := with_num_queued 2 looping.

(** A session after [open()] and [close()]. *)
Definition shut : DivertHandle := snd (close looping).


(** A packet as the callback builds it for [cap40]. *)
Definition pkt40 : Packet :=
  set_sockaddr (set_ip_data (set_valid Packet.__init__ true)
                  (PStr (slice ip40 40)))
    (PStr (slice addr 16)).

End Demo.

(** ** Vocabulary for the further properties *)

Section MoreSession.

Context {defaults : Defaults} {ipheader : IpHeader} {_lib : Lib.t}.

(** The callback's legality test, as the boolean it computes. *)
Definition legalb (c : capture) : bool :=
  (get_total_length (cap_ip_data c) >? 0)
  && (get_header_length (cap_ip_data c) >? 0).

(** What a queue item can be: the sentinel of [close], or a valid packet
    with a non-empty byte-string payload. *)
Definition sentinel_or_capture (p : Packet) : Prop :=
  p = sentinel \/
  (valid p = true /\
   exists payload, ip_data p = PStr payload /\ payload <> []).

(** Whether a call returned. *)
Definition returned {A} (o : outcome A) : bool :=
  match o with
  | Return _ => true
  | _ => false
  end.

(** The release call among the events. *)
Definition is_release (e : event) : bool :=
  match e with
  | Call_divert_close => true
  | _ => false
  end.

(** A computation that leaves the attribute (or any function of the
    attributes) [f] as it found it. *)
Definition keeps {A B} (f : DivertHandle -> B) (c : M A) : Prop :=
  forall self, f (snd (c self)) = f self.


End MoreSession.

(** ** More concrete values *)

Module DemoMore.

(** A session whose loop has returned, with one packet left to read. *)
Definition drained_loop : DivertHandle :=
  snd (loop_returns
         (snd (@ip_callback Demo.defaults Demo.ipheader Demo.cap40
                 Demo.looping))).

(** An engine that refuses every filter and whose release call fails. *)
Definition failing_close : Lib.t :=
  {| Lib.divert_activate := fun _ => 0;
     Lib.divert_update_ipfw := fun _ _ => 1;
     Lib.divert_reinject := fun _ _ _ _ => -1;
     Lib.divert_close := fun _ => -1;
     Lib.ipfw_compile_rule := fun _ _ _ => (1, [], []);
     Lib.errmsg := fun _ => "device busy" |}.

End DemoMore.

(** * Properties *)

(** ** Packet item access *)

Lemma known_key_cases (key : string) :
  In key Packet.known_keys <->
  key = "proc" \/ key = "ip_data" \/ key = "sockaddr" \/ key = "flag".
Proof.
  unfold Packet.known_keys; simpl.
  split; intros H; intuition (subst; auto).
Qed.

(** C10. Item access on a [Packet] is asymmetric: for a key outside
    proc, ip_data, sockaddr and flag, [__setitem__] raises [KeyError]
    while [__getitem__] returns [None]; for each of the four keys,
    reading the key after writing it gives back the stored value. *)
Theorem packet_item_access (self : Packet) (key : string) (v : pyval) :
  (~ In key Packet.known_keys ->
     Packet.__setitem__ self key v
       = inl (KeyError ("No suck key: " ++ key)%string) /\
     Packet.__getitem__ self key = PNone) /\
  (In key Packet.known_keys ->
     exists self',
       Packet.__setitem__ self key v = inr self' /\
       Packet.__getitem__ self' key = v).
Proof.
  rewrite known_key_cases.
  unfold Packet.__setitem__, Packet.__getitem__.
  destruct (String.eqb_spec key "proc") as [-> | Hproc].
  { split; [intros H; exfalso; apply H; auto |].
    intros _. eexists; split; [reflexivity | reflexivity]. }
  destruct (String.eqb_spec key "ip_data") as [-> | Hdata].
  { split; [intros H; exfalso; apply H; auto |].
    intros _. eexists; split; reflexivity. }
  destruct (String.eqb_spec key "sockaddr") as [-> | Haddr].
  { split; [intros H; exfalso; apply H; auto |].
    intros _. eexists; split; reflexivity. }
  destruct (String.eqb_spec key "flag") as [-> | Hflag].
  { split; [intros H; exfalso; apply H; auto |].
    intros _. eexists; split; reflexivity. }
  split; [intros _; split; reflexivity |].
  intros [H | [H | [H | H]]]; congruence.
Qed.

Lemma packet_item_access_witness :
  (~ In "ttl" Packet.known_keys /\
   Packet.__setitem__ Demo.pkt40 "ttl" (PInt 64)
     = inl (KeyError "No suck key: ttl") /\
   Packet.__getitem__ Demo.pkt40 "ttl" = PNone) /\
  (In "flag" Packet.known_keys /\
   exists self',
     Packet.__setitem__ Demo.pkt40 "flag" (PInt 7) = inr self' /\
     Packet.__getitem__ self' "flag" = PInt 7).
Proof.
  assert (Hout : ~ In "ttl" Packet.known_keys).
  { simpl. intros [H | [H | [H | [H | []]]]]; discriminate H. }
  assert (Hin : In "flag" Packet.known_keys).
  { simpl. auto. }
  split.
  - split; [exact Hout |].
    exact (proj1 (packet_item_access Demo.pkt40 "ttl" (PInt 64)) Hout).
  - split; [exact Hin |].
    exact (proj2 (packet_item_access Demo.pkt40 "flag" (PInt 7)) Hin).
Defined.

(** ** Stepping through the method monad *)

Ltac step_m :=
  unfold call, emit, bind, ret, raise, attr, assign; simpl.

Lemma with_same (self : DivertHandle) :
  with_packet_queue (packet_queue self ++ [])
    (with_trace (trace self ++ []) self) = self.
Proof.
  destruct self; unfold with_packet_queue, with_trace; simpl.
  now rewrite !app_nil_r.
Qed.

Lemma repeat_snoc {A} (x : A) (n : nat) :
  x :: repeat x n = repeat x n ++ [x].
Proof.
  induction n as [| n IH]; simpl; [reflexivity |].
  now rewrite <- IH.
Qed.

(** The loop of [close]: [n] insertions of the same packet. *)
Lemma for_times_put (p : Packet) (n : nat) (self : DivertHandle) :
  for_times n (Queue_put p) self =
    (Return tt,
     with_packet_queue (packet_queue self ++ repeat p n)
       (with_trace (trace self ++ repeat (Queue_put_ev p) n) self)).
Proof.
  revert self.
  induction n as [| n IH]; intros self.
  - simpl. unfold ret. now rewrite with_same.
  - simpl for_times. unfold bind at 1.
    unfold Queue_put at 1. step_m.
    rewrite IH. simpl.
    unfold with_packet_queue, with_trace; simpl.
    rewrite <- !app_assoc. reflexivity.
Qed.

(** [close] in closed form. *)
Lemma close_eq (self : DivertHandle) :
  close self =
    (Return tt,
     with_thread None
       (with_packet_queue
          (packet_queue self ++ repeat sentinel (Z.to_nat (num_queued self)))
          (with_trace
             (trace self
                ++ repeat (Queue_put_ev sentinel) (Z.to_nat (num_queued self))
                ++ stop_and_join (thread self))
             self))).
Proof.
  unfold close, for_range.
  unfold bind at 1. unfold attr at 1.
  unfold bind at 1.
  change (set_valid Packet.__init__ false) with sentinel.
  rewrite for_times_put.
  destruct self as [po co fi fl q n t cl tr]; simpl.
  destruct t as [[alive] |]; [destruct alive |]; step_m;
    unfold with_thread, with_packet_queue, with_trace; simpl;
    rewrite <- ?app_assoc; simpl; rewrite ?app_nil_r; reflexivity.
Qed.

Lemma skipn_all_app {A} (l r : list A) : skipn (List.length l) (l ++ r) = r.
Proof.
  induction l as [| x l IH]; simpl; [reflexivity | exact IH].
Qed.

Lemma close_trace (self : DivertHandle) :
  trace (snd (close self)) =
    trace self
      ++ repeat (Queue_put_ev sentinel) (Z.to_nat (num_queued self))
      ++ stop_and_join (thread self).
Proof. rewrite close_eq. reflexivity. Qed.

Lemma close_cleaned (self : DivertHandle) :
  _cleaned (snd (close self)) = _cleaned self.
Proof. rewrite close_eq. reflexivity. Qed.

Lemma close_thread (self : DivertHandle) : thread (snd (close self)) = None.
Proof. rewrite close_eq. reflexivity. Qed.

Lemma close_num_queued (self : DivertHandle) :
  num_queued (snd (close self)) = num_queued self.
Proof. rewrite close_eq. reflexivity. Qed.

Lemma close_queue (self : DivertHandle) :
  packet_queue (snd (close self)) =
    packet_queue self ++ repeat sentinel (Z.to_nat (num_queued self)).
Proof. rewrite close_eq. reflexivity. Qed.

Section Session.

Context {_lib : Lib.t}.

(** The destructor adds the release call to what [close] did, unless
    the one-shot flag is already set. *)
Lemma del_trace (self : DivertHandle) :
  trace (snd (__del__ self)) =
    trace (snd (close self))
      ++ (if _cleaned self then [] else [Call_divert_close]).
Proof.
  unfold __del__. unfold bind at 1.
  pose proof (close_cleaned self) as Hc.
  destruct (close self) as [o self1] eqn:E.
  assert (Ho : o = Return tt) by (rewrite close_eq in E; congruence).
  subst o. simpl in Hc |- *.
  unfold bind at 1. unfold attr at 1.
  rewrite Hc.
  destruct (_cleaned self); simpl.
  - unfold ret. simpl. now rewrite app_nil_r.
  - step_m.
    destruct (Lib.divert_close (trace self1) =? 0); reflexivity.
Qed.

Lemma no_release_in_close_events (self : DivertHandle) :
  ~ In Call_divert_close
      (repeat (Queue_put_ev sentinel) (Z.to_nat (num_queued self))
         ++ stop_and_join (thread self)).
Proof.
  intros H. apply in_app_or in H. destruct H as [H | H].
  - apply repeat_spec in H. discriminate H.
  - destruct (thread self) as [[alive] |]; simpl in H; [| exact H].
    destruct alive; simpl in H; intuition discriminate.
Qed.

(** C3 (amended). [close] always returns, and what it does is, in this
    order: one sentinel, a [valid = False] packet, is put on the queue
    per counted pending reader; then, only when a thread is attached,
    the engine is asked to stop its loop if the thread is alive, and
    the thread is joined. [close] does not release the engine handle:
    the destructor does, after running [close], unless the one-shot
    flag is set. *)
Theorem close_order (self : DivertHandle) :
  fst (close self) = Return tt /\
  new_events self (snd (close self)) =
    repeat (Queue_put_ev sentinel) (Z.to_nat (num_queued self))
      ++ match thread self with
         | Some th =>
             (if isAlive th then [Call_divert_loop_stop] else [])
               ++ [Thread_join]
         | None => []
         end /\
  ~ close_releases_handle self /\
  new_events self (snd (__del__ self)) =
    new_events self (snd (close self))
      ++ (if _cleaned self then [] else [Call_divert_close]).
Proof.
  assert (Hnew : new_events self (snd (close self)) =
                 repeat (Queue_put_ev sentinel)
                   (Z.to_nat (num_queued self))
                   ++ stop_and_join (thread self)).
  { unfold new_events. rewrite close_trace. apply skipn_all_app. }
  split; [rewrite close_eq; reflexivity |].
  split; [exact Hnew |].
  split.
  - unfold close_releases_handle. rewrite Hnew.
    apply no_release_in_close_events.
  - rewrite Hnew. unfold new_events.
    rewrite del_trace, close_trace, <- !app_assoc.
    apply skipn_all_app.
Qed.

End Session.

(** C3, as first stated, fails on a looping session with two pending
    readers: [close] puts two sentinels, stops the loop and joins, and
    makes no release call. *)
Lemma close_does_not_release :
  new_events Demo.two_pending (snd (close Demo.two_pending)) =
    [Queue_put_ev sentinel; Queue_put_ev sentinel;
     Call_divert_loop_stop; Thread_join] /\
  ~ close_releases_handle Demo.two_pending.
Proof.
  split; [reflexivity |].
  unfold close_releases_handle.
  vm_compute. intuition discriminate.
Qed.

(** ** Closing twice *)

Lemma with_thread_None_same (self : DivertHandle) :
  thread self = None -> with_thread None self = self.
Proof.
  destruct self; unfold with_thread; simpl. now intros ->.
Qed.

(** On a session with no counted reader and no thread, [close] does
    nothing at all. *)
Lemma close_noop (self : DivertHandle) :
  num_queued self = 0 -> thread self = None ->
  close self = (Return tt, self).
Proof.
  intros Hn Ht. rewrite close_eq, Hn, Ht. simpl.
  rewrite with_same. now rewrite with_thread_None_same.
Qed.

(** A second [close] right after the first, with no reader counted. *)
Lemma close_twice (self : DivertHandle) :
  num_queued self = 0 ->
  close (snd (close self)) = (Return tt, snd (close self)).
Proof.
  intros Hn. apply close_noop.
  - now rewrite close_num_queued.
  - apply close_thread.
Qed.

Section SessionClosed.

Context {_lib : Lib.t}.

(** C4. [close] is idempotent: on a session where [close] has completed
    (no pending reader counted, no thread left) a further [close]
    returns without error, leaves every attribute and the trace as they
    were, and so makes no release call; the destructor, once its
    one-shot flag is set, does not release the handle again either. *)
Theorem close_idempotent (self : DivertHandle) :
  num_queued self = 0 -> thread self = None ->
  close self = (Return tt, self) /\
  new_events self (snd (close self)) = [] /\
  (_cleaned self = true -> __del__ self = (Return tt, self)).
Proof.
  intros Hn Ht.
  pose proof (close_noop self Hn Ht) as Hc.
  split; [exact Hc |].
  split.
  - rewrite Hc. unfold new_events. simpl.
    rewrite <- (app_nil_r (trace self)) at 2. apply skipn_all_app.
  - intros Hcl. unfold __del__. unfold bind at 1. rewrite Hc.
    unfold bind, attr. rewrite Hcl. reflexivity.
Qed.

End SessionClosed.

Lemma close_idempotent_witness :
  num_queued Demo.shut = 0 /\ thread Demo.shut = None /\
  close Demo.shut = (Return tt, Demo.shut) /\
  new_events Demo.shut (snd (close Demo.shut)) = [].
Proof.
  assert (Hn : num_queued Demo.shut = 0) by reflexivity.
  assert (Ht : thread Demo.shut = None) by reflexivity.
  pose proof (@close_idempotent Demo.lib Demo.shut Hn Ht) as [Hc [He _]].
  repeat split; assumption.
Defined.

(** ** write *)

Lemma closed_returns (self : DivertHandle) :
  exists b, fst (closed self) = Return b.
Proof.
  unfold closed. destruct self as [po co fi fl q n t cl tr].
  destruct t as [[alive] |]; [destruct alive |]; step_m; eauto.
Qed.

Lemma closed_trace (self : DivertHandle) :
  trace (snd (closed self)) = trace self.
Proof.
  unfold closed. destruct self as [po co fi fl q n t cl tr].
  destruct t as [[alive] |]; [destruct alive |]; reflexivity.
Qed.

Section Write.

Context {_lib : Lib.t}.

(** C2. On a session whose [closed] property is true, [write] raises
    the state error, [RuntimeError("Divert handle closed.")], whatever
    the packet, and the trace is unchanged: no reinject call is
    made. *)
Theorem write_on_closed (self : DivertHandle) (packet_obj : option Packet) :
  fst (closed self) = Return true ->
  fst (write packet_obj self) = Raise (RuntimeError "Divert handle closed.")
  /\ trace (snd (write packet_obj self)) = trace self
  /\ (forall data len addr,
        ~ In (Call_divert_reinject data len addr)
            (new_events self (snd (write packet_obj self)))).
Proof.
  intros Hc.
  pose proof (closed_trace self) as Htr.
  assert (Hw : write packet_obj self =
               (Raise (RuntimeError "Divert handle closed."),
                snd (closed self))).
  { unfold write. unfold bind at 1.
    destruct (closed self) as [o self1]. simpl in Hc. subst o.
    reflexivity. }
  rewrite Hw. simpl.
  split; [reflexivity |]. split; [exact Htr |].
  intros data len addr. unfold new_events. rewrite Htr.
  rewrite <- (app_nil_r (trace self)) at 2. rewrite skipn_all_app.
  intros [].
Qed.


End Write.

Lemma write_on_closed_witness :
  fst (closed Demo.shut) = Return true /\
  fst (@write Demo.lib (Some Demo.pkt40) Demo.shut)
    = Raise (RuntimeError "Divert handle closed.") /\
  trace (snd (@write Demo.lib (Some Demo.pkt40) Demo.shut))
    = trace Demo.shut.
Proof.
  assert (Hc : fst (closed Demo.shut) = Return true) by reflexivity.
  pose proof (@write_on_closed Demo.lib Demo.shut (Some Demo.pkt40) Hc)
    as [Hr [Ht _]].
  repeat split; assumption.
Defined.



(** ** read and the pending-reader counter *)

(** [Queue_get] on an empty queue. *)
Lemma Queue_get_empty (block : bool) (timeout : option Z)
    (self : DivertHandle) :
  packet_queue self = [] ->
  Queue_get block timeout self =
    (match block, timeout with
     | false, _ => Raise Empty
     | true, None => Blocked
     | true, Some t =>
         if t <? 0
         then Raise (ValueError "'timeout' must be a non-negative number")
         else Raise Empty
     end, self).
Proof.
  intros Hq. unfold Queue_get, bind, attr. rewrite Hq.
  destruct block; simpl; [| reflexivity].
  destruct timeout as [t |]; [| reflexivity].
  destruct (t <? 0); reflexivity.
Qed.

(** [Queue_get] on a non-empty queue with admissible arguments. *)
Lemma Queue_get_cons (a : bool * option Z) (p : Packet)
    (rest : list Packet) (self : DivertHandle) :
  admissible a ->
  packet_queue self = p :: rest ->
  Queue_get (fst a) (snd a) self = (Return p, with_packet_queue rest self).
Proof.
  intros Ha Hq. unfold Queue_get, bind, attr. rewrite Hq.
  destruct a as [[|] [t |]]; simpl in *; try reflexivity.
  destruct (Z.ltb_spec t 0) as [Hlt | Hge]; [lia | reflexivity].
Qed.

(** A [read] that does not return leaves the counter one higher and
    nothing else changed. *)
Lemma read_not_returned (block : bool) (timeout : option Z)
    (self : DivertHandle) :
  (forall p, fst (read block timeout self) <> Return p) ->
  snd (read block timeout self) = with_num_queued (num_queued self + 1) self.
Proof.
  intros Hne. unfold read in *.
  unfold bind at 1 in Hne. unfold bind at 1.
  unfold attr at 1 in Hne. unfold attr at 1.
  unfold bind at 1 in Hne. unfold bind at 1.
  unfold assign at 1 in Hne. unfold assign at 1.
  unfold bind at 1 in Hne. unfold bind at 1.
  destruct (Queue_get block timeout
              (with_num_queued (num_queued self + 1) self))
    as [[p | e |] self1] eqn:E.
  - exfalso. apply (Hne p). reflexivity.
  - simpl. unfold Queue_get, bind, attr, assign, raise, ret in E.
    destruct block, timeout as [t |], (packet_queue
      (with_num_queued (num_queued self + 1) self)); simpl in E;
      try destruct (t <? 0); simpl in E; congruence.
  - simpl. unfold Queue_get, bind, attr, assign, raise, ret in E.
    destruct block, timeout as [t |], (packet_queue
      (with_num_queued (num_queued self + 1) self)); simpl in E;
      try destruct (t <? 0); simpl in E; congruence.
Qed.

(** A [read] that returns restores the counter. *)
Lemma read_returned (a : bool * option Z) (p : Packet) (rest : list Packet)
    (self : DivertHandle) :
  admissible a ->
  packet_queue self = p :: rest ->
  read (fst a) (snd a) self = (Return p, with_packet_queue rest self).
Proof.
  intros Ha Hq. unfold read.
  unfold bind at 1. unfold attr at 1.
  unfold bind at 1. unfold assign at 1.
  unfold bind at 1.
  rewrite (Queue_get_cons a p rest) by (assumption || exact Hq).
  step_m. destruct self; unfold with_num_queued, with_packet_queue; simpl.
  f_equal. f_equal. lia.
Qed.


(** *** Who changes the counter *)

Lemma keeps_ret {A} (a : A) : keeps_count (ret a).
Proof. intros self. reflexivity. Qed.

Lemma keeps_raise {A} (e : exn) : keeps_count (@raise A e).
Proof. intros self. reflexivity. Qed.

Lemma keeps_attr {A} (f : DivertHandle -> A) : keeps_count (attr f).
Proof. intros self. reflexivity. Qed.

Lemma keeps_emit (e : event) : keeps_count (emit e).
Proof. intros self. reflexivity. Qed.

Lemma keeps_assign (f : DivertHandle -> DivertHandle) :
  (forall self, num_queued (f self) = num_queued self) ->
  keeps_count (assign f).
Proof. intros Hf self. apply Hf. Qed.

Lemma keeps_bind {A B} (c : M A) (k : A -> M B) :
  keeps_count c -> (forall a, keeps_count (k a)) -> keeps_count (bind c k).
Proof.
  intros Hc Hk self. unfold bind.
  specialize (Hc self).
  destruct (c self) as [[a | e |] self1]; simpl in *; try exact Hc.
  rewrite (Hk a self1). exact Hc.
Qed.

Lemma keeps_call {_lib : Lib.t} {A} (e : event) (reply : list event -> A) :
  keeps_count (call e reply).
Proof. intros self. reflexivity. Qed.

Lemma keeps_if {A} (b : bool) (c1 c2 : M A) :
  keeps_count c1 -> keeps_count c2 -> keeps_count (if b then c1 else c2).
Proof. destruct b; auto. Qed.

Create HintDb keeps.
#[local] Hint Resolve keeps_ret keeps_raise keeps_attr keeps_emit
  keeps_call keeps_if : keeps.

Ltac keeps_tac :=
  repeat first
    [ solve [auto with keeps]
    | apply keeps_assign; intros []; reflexivity
    | apply keeps_bind; [| intro]
    | apply keeps_if ].

Lemma keeps_Queue_put (p : Packet) : keeps_count (Queue_put p).
Proof. unfold Queue_put. keeps_tac. Qed.
#[local] Hint Resolve keeps_Queue_put : keeps.

Section Counter.

Context {defaults : Defaults} {ipheader : IpHeader} {_lib : Lib.t}.

Lemma keeps_ip_callback (c : capture) : keeps_count (ip_callback c).
Proof.
  unfold ip_callback.
  destruct (_ && _); [apply keeps_Queue_put | apply keeps_ret].
Qed.

Lemma keeps_loop_returns : keeps_count loop_returns.
Proof.
  unfold loop_returns. keeps_tac.
  destruct a; keeps_tac.
Qed.

Lemma keeps_closed : keeps_count closed.
Proof.
  unfold closed. keeps_tac.
  destruct a as [[[|]] |]; simpl; keeps_tac.
Qed.

Lemma keeps_close : keeps_count close.
Proof. intros self. apply close_num_queued. Qed.
#[local] Hint Resolve keeps_closed keeps_close : keeps.

Lemma keeps_del : keeps_count __del__.
Proof.
  unfold __del__. keeps_tac.
Qed.

Lemma keeps_set_filter (f : list byte) : keeps_count (set_filter f).
Proof.
  unfold set_filter. destruct f; keeps_tac.
Qed.
#[local] Hint Resolve keeps_set_filter : keeps.

Lemma keeps_open : keeps_count open.
Proof.
  unfold open. keeps_tac.
  destruct a; keeps_tac.
Qed.

Lemma keeps_compile (r : list byte) (p : Z) :
  keeps_count (ipfw_compile_rule r p).
Proof.
  unfold ipfw_compile_rule. keeps_tac.
  destruct a as [[status rw] ew]. keeps_tac.
Qed.

Lemma keeps_write (p : option Packet) : keeps_count (write p).
Proof.
  unfold write. keeps_tac.
  destruct p as [p |]; keeps_tac.
Qed.

(** [read] never lowers the counter. *)
Lemma read_count (block : bool) (timeout : option Z)
    (self : DivertHandle) :
  num_queued self <= num_queued (snd (read block timeout self)).
Proof.
  destruct (fst (read block timeout self)) as [p | e |] eqn:E.
  - unfold read, Queue_get, bind, attr, assign, raise, ret in *.
    destruct self as [po co fi fl q n t cl tr]; simpl in *.
    destruct block, timeout as [t' |], q; simpl in *;
      try destruct (t' <? 0); simpl in *; try discriminate; lia.
  - rewrite read_not_returned.
    + destruct self; simpl; lia.
    + intros p. rewrite E. discriminate.
  - rewrite read_not_returned.
    + destruct self; simpl; lia.
    + intros p. rewrite E. discriminate.
Qed.

(** No operation on a session lowers the counter. *)
Lemma run_op_count (o : op) (self : DivertHandle) :
  num_queued self <= num_queued (run_op o self).
Proof.
  destruct o; simpl.
  - rewrite keeps_ip_callback. lia.
  - rewrite keeps_loop_returns. lia.
  - rewrite keeps_closed. lia.
  - rewrite keeps_close. lia.
  - rewrite keeps_del. lia.
  - rewrite keeps_open. lia.
  - rewrite keeps_set_filter. lia.
  - rewrite keeps_compile. lia.
  - apply read_count.
  - rewrite keeps_write. lia.
Qed.

Lemma run_ops_count (os : list op) (self : DivertHandle) :
  num_queued self <= num_queued (run_ops os self).
Proof.
  revert self. unfold run_ops.
  induction os as [| o os IH]; intros self; simpl; [lia |].
  pose proof (run_op_count o self). specialize (IH (run_op o self)). lia.
Qed.

End Counter.

Section FailedRead.

Context {defaults : Defaults} {ipheader : IpHeader} {_lib : Lib.t}.

(** C9. A [read] that does not wait without limit (non-blocking, or
    with a timeout) on an empty queue raises, and the pending-reader
    counter stays incremented: the failure path does not restore it,
    no later operation lowers it, and a later [close] enqueues one more
    sentinel than it would have without the failed read. *)
Theorem failed_read_leaves_counter
    (self : DivertHandle) (block : bool) (timeout : option Z) :
  packet_queue self = [] ->
  block = false \/ timeout <> None ->
  0 <= num_queued self ->
  (exists e,
     read block timeout self =
       (Raise e, with_num_queued (num_queued self + 1) self)) /\
  (forall os,
     num_queued self + 1
       <= num_queued (run_ops os (snd (read block timeout self)))) /\
  packet_queue (snd (close (snd (read block timeout self)))) =
    packet_queue (snd (close self)) ++ [sentinel].
Proof.
  intros Hq Hpol Hn.
  assert (Hread : exists e,
             read block timeout self =
               (Raise e, with_num_queued (num_queued self + 1) self)).
  { unfold read.
    unfold bind at 1. unfold attr at 1.
    unfold bind at 1. unfold assign at 1.
    unfold bind at 1.
    rewrite Queue_get_empty by exact Hq.
    destruct block.
    - destruct timeout as [t |]; [| destruct Hpol; congruence].
      destruct (t <? 0); eauto.
    - eauto. }
  destruct Hread as [e He].
  split; [exists e; exact He |].
  rewrite He. simpl. split.
  - intros os.
    pose proof (run_ops_count os
                  (with_num_queued (num_queued self + 1) self)) as H.
    simpl in H. exact H.
  - rewrite !close_queue. simpl.
    replace (Z.to_nat (num_queued self + 1))
      with (S (Z.to_nat (num_queued self))) by lia.
    simpl. rewrite repeat_snoc, app_assoc. reflexivity.
Qed.

(** Failed reads add up: after [k] non-waiting reads on an empty queue
    the counter is [k] higher. *)
Lemma failed_reads_accumulate
    (args : list (bool * option Z)) (self : DivertHandle) :
  packet_queue self = [] ->
  Forall (fun a => fst a = false \/ snd a <> None) args ->
  num_queued (snd (reads args self))
    = num_queued self + Z.of_nat (List.length args) /\
  packet_queue (snd (reads args self)) = [].
Proof.
  intros Hq Hall. revert self Hq.
  induction Hall as [| [b t] args Ha _ IH]; intros self Hq.
  - simpl. split; [lia | exact Hq].
  - cbn [reads].
    assert (Hs : snd (read b t self)
                 = with_num_queued (num_queued self + 1) self).
    { apply read_not_returned. intros p.
      unfold read. unfold bind at 1. unfold attr at 1.
      unfold bind at 1. unfold assign at 1. unfold bind at 1.
      rewrite Queue_get_empty by exact Hq.
      simpl in Ha. destruct b.
      - destruct t as [t |]; [| destruct Ha; congruence].
        destruct (t <? 0); discriminate.
      - discriminate. }
    destruct (read b t self) as [o self1]. simpl in Hs. subst self1.
    specialize (IH (with_num_queued (num_queued self + 1) self) Hq).
    destruct (reads args (with_num_queued (num_queued self + 1) self))
      as [os self2].
    simpl in *. destruct IH as [IH1 IH2]. split; [lia | exact IH2].
Qed.

End FailedRead.

Lemma failed_read_leaves_counter_witness :
  packet_queue Demo.looping = [] /\
  (exists e,
     read false None Demo.looping =
       (Raise e, with_num_queued 1 Demo.looping)) /\
  packet_queue (snd (close (snd (read false None Demo.looping))))
    = [sentinel].
Proof.
  assert (Hq : packet_queue Demo.looping = []) by reflexivity.
  assert (Hn : 0 <= num_queued Demo.looping) by (vm_compute; discriminate).
  pose proof (@failed_read_leaves_counter Demo.defaults Demo.ipheader
                Demo.lib Demo.looping false None Hq (or_introl eq_refl) Hn)
    as [Hr [_ Hc]].
  split; [exact Hq |]. split; [exact Hr | exact Hc].
Defined.

(** ** The capture callback *)

Section Callback.

Context {defaults : Defaults} {ipheader : IpHeader}.

Lemma ip_callback_legal (c : capture) (self : DivertHandle) :
  legal c ->
  ip_callback c self = (Return tt, enqueue (captured c) self).
Proof.
  intros [Hlen Hhdr]. unfold ip_callback.
  apply Z.gtb_lt in Hlen. apply Z.gtb_lt in Hhdr.
  rewrite Hlen, Hhdr. simpl andb. cbv iota.
  unfold captured, payload_of.
  destruct (pid (cap_proc_info c) =? -1), (epid (cap_proc_info c) =? -1);
    reflexivity.
Qed.

(** A capture that fails the legality test is dropped: nothing is
    enqueued and nothing else changes. *)
Lemma ip_callback_illegal (c : capture) (self : DivertHandle) :
  ~ legal c -> ip_callback c self = (Return tt, self).
Proof.
  intros Hn. unfold ip_callback.
  destruct (Z.gtb_spec (get_total_length (cap_ip_data c)) 0) as [H1 | H1];
    [| reflexivity].
  destruct (Z.gtb_spec (get_header_length (cap_ip_data c)) 0) as [H2 | H2];
    [| reflexivity].
  exfalso. apply Hn. split; lia.
Qed.

Lemma deliver_legal (cs : list capture) (self : DivertHandle) :
  Forall legal cs ->
  fst (deliver cs self) = Return tt /\
  packet_queue (snd (deliver cs self))
    = packet_queue self ++ map captured cs.
Proof.
  intros Hall. revert self.
  induction Hall as [| c cs Hc _ IH]; intros self.
  - simpl. now rewrite app_nil_r.
  - cbn [deliver]. unfold bind.
    rewrite (ip_callback_legal c self Hc).
    destruct (IH (enqueue (captured c) self)) as [IH1 IH2].
    split; [exact IH1 |].
    rewrite IH2. simpl. now rewrite <- app_assoc.
Qed.

Lemma legal_dec (c : capture) : {legal c} + {~ legal c}.
Proof.
  unfold legal.
  destruct (Z_lt_dec 0 (get_total_length (cap_ip_data c)));
    destruct (Z_lt_dec 0 (get_header_length (cap_ip_data c)));
    (left; tauto) || (right; tauto).
Qed.





(** C8. For a capture the callback enqueues, the packet's process info
    is [None] exactly when the engine reports -1 for both pid and epid;
    otherwise it is a copy of the engine's process info. *)
Theorem callback_process_info (self : DivertHandle) (c : capture) :
  legal c ->
  exists p,
    packet_queue (snd (ip_callback c self)) = packet_queue self ++ [p] /\
    (proc p = PNone <->
       pid (cap_proc_info c) = -1 /\ epid (cap_proc_info c) = -1) /\
    (~ (pid (cap_proc_info c) = -1 /\ epid (cap_proc_info c) = -1) ->
       proc p = PProc (cap_proc_info c)).
Proof.
  intros Hc. exists (captured c).
  rewrite (ip_callback_legal c self Hc). simpl.
  split; [reflexivity |].
  destruct (Z.eqb_spec (pid (cap_proc_info c)) (-1)) as [Hp | Hp];
    destruct (Z.eqb_spec (epid (cap_proc_info c)) (-1)) as [He | He];
    simpl; split; try split; intros; try tauto; try discriminate;
    try reflexivity.
Qed.

End Callback.


Lemma callback_process_info_witness :
  @legal Demo.ipheader Demo.cap60 /\
  exists p,
    packet_queue (snd (@ip_callback Demo.defaults Demo.ipheader
                         Demo.cap60 Demo.looping)) = [p] /\
    (proc p = PNone <->
       pid (cap_proc_info Demo.cap60) = -1 /\
       epid (cap_proc_info Demo.cap60) = -1).
Proof.
  assert (Hl : @legal Demo.ipheader Demo.cap60)
    by (unfold legal; vm_compute; split; reflexivity).
  split; [exact Hl |].
  destruct (@callback_process_info Demo.defaults Demo.ipheader
              Demo.looping Demo.cap60 Hl) as [p [Hq [Hp _]]].
  exists p. split; assumption.
Defined.

(** ** Delivery order *)

(** Reads with admissible arguments, as many as the queue holds, return
    the queue's packets from the oldest on and empty it. *)
Lemma reads_drain (ps : list Packet) :
  forall (args : list (bool * option Z)) (self : DivertHandle),
    packet_queue self = ps ->
    List.length args = List.length ps ->
    Forall admissible args ->
    reads args self = (map Return ps, with_packet_queue [] self).
Proof.
  induction ps as [| p ps IH]; intros args self Hq Hlen Hadm.
  - destruct args; [| discriminate Hlen]. simpl.
    destruct self; unfold with_packet_queue; simpl in *. now subst.
  - destruct args as [| [b t] args]; [discriminate Hlen |].
    inversion Hadm as [| a l Ha Hrest]; subst a l.
    cbn [reads].
    pose proof (read_returned (b, t) p ps self Ha Hq) as Hr.
    simpl in Hr. rewrite Hr.
    rewrite (IH args (with_packet_queue ps self)); auto.
Qed.

Section Fifo.

Context {defaults : Defaults} {ipheader : IpHeader}.

(** C1. Starting from an empty queue, after the callback has been
    invoked on N captures whose total length and header length are all
    positive, N reads return, in callback order, packets that are valid
    and whose payloads are the delivered payloads; none of them raises
    or waits. *)
Theorem reads_follow_callback_order
    (self : DivertHandle) (cs : list capture)
    (args : list (bool * option Z)) :
  packet_queue self = [] ->
  Forall legal cs ->
  List.length args = List.length cs ->
  Forall admissible args ->
  Forall2
    (fun c o =>
       exists p, o = Return p /\ valid p = true /\
                 ip_data p = PStr (payload_of c))
    cs (fst (reads args (snd (deliver cs self)))).
Proof.
  intros Hq Hleg Hlen Hadm.
  destruct (deliver_legal cs self Hleg) as [_ Hdq].
  rewrite Hq in Hdq. simpl in Hdq.
  rewrite (reads_drain (map captured cs) args _ Hdq)
    by (rewrite ?length_map; assumption).
  simpl. clear.
  induction cs as [| c cs IH]; simpl; constructor; [| exact IH].
  exists (captured c). repeat split.
Qed.

End Fifo.

Lemma reads_follow_callback_order_witness :
  Forall2
    (fun c o =>
       exists p, o = Return p /\ valid p = true /\
                 ip_data p = PStr (@payload_of Demo.ipheader c))
    [Demo.cap40; Demo.cap60]
    (fst (reads [(true, None); (false, None)]
            (snd (@deliver Demo.defaults Demo.ipheader
                    [Demo.cap40; Demo.cap60] Demo.looping)))).
Proof.
  apply (@reads_follow_callback_order Demo.defaults Demo.ipheader
           Demo.looping [Demo.cap40; Demo.cap60]
           [(true, None); (false, None)]).
  - reflexivity.
  - repeat constructor; vm_compute; reflexivity.
  - reflexivity.
  - repeat constructor.
Defined.

(** ** Rule compilation *)



Section Compile.

Context {defaults : Defaults} {_lib : Lib.t}.


End Compile.


(** * Further properties of the code *)

(** ** write: what is never reinjected *)

Section NeverReinjected.

Context {_lib : Lib.t}.

(** X1. The sentinel that [close] enqueues is never reinjected: on any
    session, closed or not, [write] of it raises a [RuntimeError] and
    makes no engine call. The same holds for [write(None)]. *)
Theorem write_never_reinjects_sentinel (self : DivertHandle) :
  (exists msg, fst (write (Some sentinel) self) = Raise (RuntimeError msg))
  /\ trace (snd (write (Some sentinel) self)) = trace self
  /\ (exists msg, fst (write None self) = Raise (RuntimeError msg))
  /\ trace (snd (write None self)) = trace self.
Proof.
  destruct (closed_returns self) as [b Hb].
  pose proof (closed_trace self) as Htr.
  unfold write, bind.
  destruct (closed self) as [o self1]. simpl in Hb, Htr. subst o.
  destruct b; simpl; repeat split; eauto.
Qed.

End NeverReinjected.

(** ** ctypes buffers: what [.value] gives back *)





Section Diagnostic.

Context {defaults : Defaults} {_lib : Lib.t}.


End Diagnostic.


(** ** Which attributes a method leaves alone *)

Lemma keeps_ret' {A B} (f : DivertHandle -> B) (a : A) : keeps f (ret a).
Proof. intros self. reflexivity. Qed.

Lemma keeps_raise' {A B} (f : DivertHandle -> B) (e : exn) :
  keeps f (@raise A e).
Proof. intros self. reflexivity. Qed.

Lemma keeps_attr' {A B} (f : DivertHandle -> B) (g : DivertHandle -> A) :
  keeps f (attr g).
Proof. intros self. reflexivity. Qed.

Lemma keeps_assign' {B} (f : DivertHandle -> B)
    (g : DivertHandle -> DivertHandle) :
  (forall self, f (g self) = f self) -> keeps f (assign g).
Proof. intros Hg self. apply Hg. Qed.

Lemma keeps_emit' {B} (f : DivertHandle -> B) (e : event) :
  (forall tr self, f (with_trace tr self) = f self) -> keeps f (emit e).
Proof. intros Hf self. apply Hf. Qed.

Lemma keeps_bind' {A B C} (f : DivertHandle -> C) (c : M A) (k : A -> M B) :
  keeps f c -> (forall a, keeps f (k a)) -> keeps f (bind c k).
Proof.
  intros Hc Hk self. unfold bind. specialize (Hc self).
  destruct (c self) as [[a | e |] self1]; simpl in *; try exact Hc.
  now rewrite (Hk a self1).
Qed.

(** After [c], a continuation that keeps [f] leaves it as [c] left it. *)
Lemma keeps_after {A B C} (f : DivertHandle -> C) (c : M A) (k : A -> M B) :
  (forall a, keeps f (k a)) ->
  forall self, f (snd (bind c k self)) = f (snd (c self)).
Proof.
  intros Hk self. unfold bind.
  destruct (c self) as [[a | e |] self1]; simpl; try reflexivity.
  apply Hk.
Qed.

Lemma keeps_call' {_lib : Lib.t} {A B} (f : DivertHandle -> B) (e : event)
    (reply : list event -> A) :
  (forall tr self, f (with_trace tr self) = f self) -> keeps f (call e reply).
Proof. intros Hf self. apply Hf. Qed.

Lemma keeps_if' {A B} (f : DivertHandle -> B) (b : bool) (c1 c2 : M A) :
  keeps f c1 -> keeps f c2 -> keeps f (if b then c1 else c2).
Proof. destruct b; auto. Qed.

Create HintDb keeps_attr_db.
#[local] Hint Resolve keeps_ret' keeps_raise' keeps_attr' keeps_if'
  : keeps_attr_db.

Ltac keeps_any :=
  repeat first
    [ solve [auto with keeps_attr_db]
    | apply keeps_assign'; intros []; reflexivity
    | apply keeps_emit'; intros ? []; reflexivity
    | apply keeps_call'; intros ? []; reflexivity
    | apply keeps_bind'; [| intro]
    | apply keeps_if' ].

Section Untouched.

Context {defaults : Defaults} {ipheader : IpHeader} {_lib : Lib.t}.

Lemma closed_keeps_queue : keeps packet_queue closed.
Proof. unfold closed. keeps_any. destruct a as [[[|]] |]; keeps_any. Qed.
#[local] Hint Resolve closed_keeps_queue : keeps_attr_db.

Lemma loop_returns_keeps_queue : keeps packet_queue loop_returns.
Proof. unfold loop_returns. keeps_any. destruct a; keeps_any. Qed.

Lemma set_filter_keeps_queue (f : list byte) :
  keeps packet_queue (set_filter f).
Proof. unfold set_filter. destruct f; keeps_any. Qed.

Lemma open_keeps_queue : keeps packet_queue open.
Proof.
  unfold open. keeps_any.
  destruct a; keeps_any.
Qed.

Lemma compile_keeps_queue (r : list byte) (p : Z) :
  keeps packet_queue (ipfw_compile_rule r p).
Proof.
  unfold ipfw_compile_rule. keeps_any.
  destruct a as [[status rw] ew]. keeps_any.
Qed.

Lemma write_keeps_queue (p : option Packet) : keeps packet_queue (write p).
Proof.
  unfold write. keeps_any.
  destruct p as [p |]; keeps_any.
Qed.

Lemma del_queue (self : DivertHandle) :
  packet_queue (snd (__del__ self)) = packet_queue (snd (close self)).
Proof.
  unfold __del__. apply keeps_after. intros _. keeps_any.
Qed.

(** [read] leaves the queue as it is or removes its oldest item, which
    it then returns. *)
Lemma read_queue (block : bool) (timeout : option Z) (self : DivertHandle) :
  (packet_queue (snd (read block timeout self)) = packet_queue self /\
   returned (fst (read block timeout self)) = false /\
   num_queued (snd (read block timeout self)) = num_queued self + 1)
  \/
  (exists p, packet_queue self = p :: packet_queue (snd (read block timeout self))
             /\ fst (read block timeout self) = Return p
             /\ num_queued (snd (read block timeout self)) = num_queued self).
Proof.
  unfold read, Queue_get, bind, attr, assign, raise, ret.
  destruct self as [po co fi fl q n t cl tr]; simpl.
  destruct block, timeout as [t' |], q as [| p q]; simpl;
    try destruct (t' <? 0); simpl;
    solve [ left; repeat split; reflexivity
          | right; exists p; repeat split; simpl; lia ].
Qed.

Lemma slice_nonempty (p : pointer) (n : Z) : 0 < n -> slice p n <> [].
Proof.
  intros Hn E. apply (f_equal (@List.length byte)) in E.
  unfold slice in E. rewrite length_map, length_seq in E. simpl in E. lia.
Qed.

Lemma captured_ok (c : capture) : legal c -> sentinel_or_capture (captured c).
Proof.
  intros [Hlen _]. right. split; [reflexivity |].
  exists (payload_of c). split; [reflexivity |].
  now apply slice_nonempty.
Qed.

(** Every operation keeps the queue made of sentinels and captures. *)
Lemma run_op_queue_items (o : op) (self : DivertHandle) :
  Forall sentinel_or_capture (packet_queue self) ->
  Forall sentinel_or_capture (packet_queue (run_op o self)).
Proof.
  intros H. destruct o; simpl.
  - destruct (legal_dec c) as [Hc | Hc].
    + rewrite (ip_callback_legal c self Hc). simpl.
      apply Forall_app. split; [exact H |].
      constructor; [now apply captured_ok | constructor].
    + now rewrite (ip_callback_illegal c self Hc).
  - now rewrite loop_returns_keeps_queue.
  - now rewrite closed_keeps_queue.
  - rewrite close_queue. apply Forall_app. split; [exact H |].
    apply Forall_forall. intros p Hp. apply repeat_spec in Hp.
    left. exact Hp.
  - rewrite del_queue, close_queue. apply Forall_app. split; [exact H |].
    apply Forall_forall. intros p Hp. apply repeat_spec in Hp.
    left. exact Hp.
  - now rewrite open_keeps_queue.
  - now rewrite set_filter_keeps_queue.
  - now rewrite compile_keeps_queue.
  - destruct (read_queue block timeout self) as [[Hq _] | [p [Hq _]]].
    + now rewrite Hq.
    + rewrite Hq in H. now inversion H.
  - now rewrite write_keeps_queue.
Qed.

Lemma run_ops_queue_items (os : list op) (self : DivertHandle) :
  Forall sentinel_or_capture (packet_queue self) ->
  Forall sentinel_or_capture (packet_queue (run_ops os self)).
Proof.
  revert self. unfold run_ops.
  induction os as [| o os IH]; intros self H; simpl; [exact H |].
  apply IH. now apply run_op_queue_items.
Qed.

(** X3. Whatever is done with a session after its construction, its
    queue holds only shutdown sentinels and valid packets with a
    non-empty payload, and so does every [read] that returns: a packet
    with [valid = False] is always the sentinel. *)
Theorem queue_holds_sentinels_and_captures
    (port : Z) (filter_str : list byte) (flags count : Z) (os : list op) :
  let self := run_ops os (snd (__init__ port filter_str flags count)) in
  Forall sentinel_or_capture (packet_queue self) /\
  (forall block timeout p,
     fst (read block timeout self) = Return p ->
     sentinel_or_capture p /\ (valid p = false -> p = sentinel)).
Proof.
  intros self.
  assert (H : Forall sentinel_or_capture (packet_queue self)).
  { apply run_ops_queue_items.
    unfold __init__. step_m.
    destruct (negb _); simpl; constructor. }
  split; [exact H |].
  intros block timeout p Hr.
  assert (Hp : sentinel_or_capture p).
  { destruct (read_queue block timeout self)
      as [[_ [Hn _]] | [p' [Hq [Hr' _]]]].
    - rewrite Hr in Hn. discriminate Hn.
    - rewrite Hr in Hr'. injection Hr' as <-.
      rewrite Hq in H. now inversion H. }
  split; [exact Hp |].
  intros Hv. destruct Hp as [Hs | [Hv' _]]; [exact Hs | congruence].
Qed.


End Untouched.

(** ** Shutdown and the readers *)

Lemma read_empty (block : bool) (timeout : option Z) (self : DivertHandle) :
  packet_queue self = [] ->
  fst (read block timeout self) = fst (Queue_get block timeout self).
Proof.
  intros Hq. unfold read.
  unfold bind at 1. unfold attr at 1.
  unfold bind at 1. unfold assign at 1.
  unfold bind at 1.
  rewrite !Queue_get_empty by exact Hq.
  destruct block, timeout as [t |]; simpl; try destruct (t <? 0);
    reflexivity.
Qed.

(** X5. [close] wakes exactly the counted readers: after [close] on a
    session with an empty queue, as many reads as [num_queued] counted
    return the sentinel; the queue is then empty again, so one more
    [read()] waits for ever and a non-blocking one raises [Empty]. *)
Theorem close_wakes_counted_readers
    (self : DivertHandle) (args : list (bool * option Z)) :
  packet_queue self = [] ->
  List.length args = Z.to_nat (num_queued self) ->
  Forall admissible args ->
  let after := reads args (snd (close self)) in
  fst after = repeat (Return sentinel) (List.length args) /\
  packet_queue (snd after) = [] /\
  fst (read true None (snd after)) = Blocked /\
  fst (read false None (snd after)) = Raise Empty.
Proof.
  intros Hq Hlen Hadm after. subst after.
  assert (Hcq : packet_queue (snd (close self))
                = repeat sentinel (List.length args)).
  { rewrite close_queue, Hq, Hlen. reflexivity. }
  rewrite (reads_drain _ args _ Hcq)
    by (rewrite ?repeat_length; auto).
  cbn [fst snd]. split; [apply map_repeat |]. split; [reflexivity |].
  split; rewrite read_empty by reflexivity;
    rewrite Queue_get_empty by reflexivity; reflexivity.
Qed.

Lemma close_wakes_counted_readers_witness :
  fst (reads [(true, None); (false, None)] (snd (close Demo.two_pending)))
    = [Return sentinel; Return sentinel] /\
  fst (read true None
         (snd (reads [(true, None); (false, None)]
                 (snd (close Demo.two_pending))))) = Blocked.
Proof.
  destruct (close_wakes_counted_readers Demo.two_pending
              [(true, None); (false, None)])
    as [H1 [_ [H3 _]]].
  - reflexivity.
  - reflexivity.
  - repeat constructor.
  - split; [exact H1 | exact H3].
Defined.

(** ** From capture to reinjection *)

Section Reinject.

Context {defaults : Defaults} {ipheader : IpHeader} {_lib : Lib.t}.

Lemma write_while_looping (self : DivertHandle) (p : Packet) :
  thread self = Some {| isAlive := true |} ->
  truthy (ip_data p) = true -> truthy (sockaddr p) = true ->
  write (Some p) self =
    (Return (Lib.divert_reinject (trace self) (ip_data p) (-1) (sockaddr p)),
     with_trace
       (trace self ++ [Call_divert_reinject (ip_data p) (-1) (sockaddr p)])
       self).
Proof.
  intros Ht Hd Ha.
  destruct self as [po co fi fl q n t cl tr]. simpl in Ht. subst t.
  unfold write, closed. step_m. rewrite Hd, Ha. reflexivity.
Qed.

Lemma slice_truthy (p : pointer) (n : Z) :
  0 < n -> truthy (PStr (slice p n)) = true.
Proof.
  intros Hn. pose proof (slice_nonempty p n Hn) as H.
  simpl. destruct (slice p n); [congruence | reflexivity].
Qed.

(** X6. A captured packet goes back to the engine as it came: on a
    looping session, the packet read after a legal capture is accepted by
    [write], which makes one reinject call carrying exactly the captured
    payload bytes, [-1], and the captured address token, and returns the
    engine's count. *)
Theorem captured_packet_reinjects_unchanged
    (self : DivertHandle) (c : capture) (a : bool * option Z) :
  legal c ->
  (0 < SOCKET_ADDR_SIZE)%nat ->
  packet_queue self = [] ->
  thread self = Some {| isAlive := true |} ->
  admissible a ->
  let payload := PStr (payload_of c) in
  let token := PStr (slice (cap_sockaddr c) (Z.of_nat SOCKET_ADDR_SIZE)) in
  exists p s1,
    read (fst a) (snd a) (snd (ip_callback c self)) = (Return p, s1) /\
    fst (write (Some p) s1)
      = Return (Lib.divert_reinject (trace s1) payload (-1) token) /\
    new_events s1 (snd (write (Some p) s1))
      = [Call_divert_reinject payload (-1) token].
Proof.
  intros Hc Hsz Hq Ht Ha payload token.
  rewrite (ip_callback_legal c self Hc).
  exists (captured c). eexists. split.
  - apply read_returned; [exact Ha |].
    simpl. rewrite Hq. reflexivity.
  - rewrite write_while_looping.
    + simpl. split; [reflexivity |].
      unfold new_events. simpl. apply skipn_all_app.
    + simpl. exact Ht.
    + simpl ip_data. apply slice_truthy. destruct Hc; lia.
    + simpl sockaddr. apply slice_truthy. lia.
Qed.

(** X7. Once the engine loop has ended (or after [close]), the packet
    that empties the queue can no longer be reinjected: the read returns
    it, the session is closed from then on, and [write] of that packet
    raises "Divert handle closed." without an engine call. *)
Theorem last_packet_cannot_be_reinjected
    (self : DivertHandle) (p : Packet) (a : bool * option Z) :
  thread self <> Some {| isAlive := true |} ->
  packet_queue self = [p] ->
  admissible a ->
  exists s1,
    read (fst a) (snd a) self = (Return p, s1) /\
    fst (write (Some p) s1) = Raise (RuntimeError "Divert handle closed.") /\
    trace (snd (write (Some p) s1)) = trace self.
Proof.
  intros Ht Hq Ha. eexists. split.
  - apply read_returned; [exact Ha | exact Hq].
  - destruct self as [po co fi fl q n t cl tr]. simpl in *.
    destruct t as [[[|]] |]; [congruence | |];
      unfold write, closed; step_m; split; reflexivity.
Qed.

Lemma legalb_spec (c : capture) : legalb c = true <-> legal c.
Proof.
  unfold legalb, legal. rewrite andb_true_iff, !Z.gtb_lt. tauto.
Qed.

(** X8. The callback drops illegal captures and nothing else: after any
    sequence of callbacks, the queue has grown by the packets of the
    captures whose total length and header length are positive, in
    callback order; the others leave no mark. *)
Theorem deliver_keeps_legal_in_order
    (cs : list capture) (self : DivertHandle) :
  fst (deliver cs self) = Return tt /\
  packet_queue (snd (deliver cs self))
    = packet_queue self ++ map captured (filter legalb cs) /\
  num_queued (snd (deliver cs self)) = num_queued self /\
  thread (snd (deliver cs self)) = thread self.
Proof.
  revert self. induction cs as [| c cs IH]; intros self.
  - simpl. now rewrite app_nil_r.
  - cbn [deliver filter]. unfold bind.
    destruct (legal_dec c) as [Hc | Hc].
    + rewrite (ip_callback_legal c self Hc).
      rewrite (proj2 (legalb_spec c) Hc).
      destruct (IH (enqueue (captured c) self)) as [H1 [H2 [H3 H4]]].
      rewrite H1, H2, H3, H4. simpl. now rewrite <- app_assoc.
    + rewrite (ip_callback_illegal c self Hc).
      destruct (legalb c) eqn:E;
        [exfalso; apply Hc; now apply legalb_spec |].
      apply IH.
Qed.

End Reinject.

Lemma captured_packet_reinjects_unchanged_witness :
  exists p s1,
    read true None
      (snd (@ip_callback Demo.defaults Demo.ipheader Demo.cap40 Demo.looping))
      = (Return p, s1) /\
    fst (@write Demo.lib (Some p) s1) = Return 40.
Proof.
  destruct (@captured_packet_reinjects_unchanged Demo.defaults Demo.ipheader
              Demo.lib Demo.looping Demo.cap40 (true, None))
    as [p [s1 [Hr [Hw _]]]].
  - unfold legal. vm_compute. split; reflexivity.
  - vm_compute. lia.
  - reflexivity.
  - reflexivity.
  - exact I.
  - exists p, s1. split; [exact Hr |]. rewrite Hw. reflexivity.
Defined.

Lemma last_packet_cannot_be_reinjected_witness :
  exists s1,
    read true None DemoMore.drained_loop = (Return (@captured Demo.defaults Demo.ipheader Demo.cap40), s1) /\
    fst (@write Demo.lib (Some (@captured Demo.defaults Demo.ipheader Demo.cap40)) s1)
      = Raise (RuntimeError "Divert handle closed.").
Proof.
  destruct (@last_packet_cannot_be_reinjected Demo.lib DemoMore.drained_loop
              (@captured Demo.defaults Demo.ipheader Demo.cap40) (true, None))
    as [s1 [Hr [Hw _]]].
  - discriminate.
  - reflexivity.
  - exact I.
  - exists s1. split; assumption.
Defined.

(** ** Construction, open and the destructor *)

Section Lifecycle.

Context {_lib : Lib.t}.

Lemma set_filter_eq (f : list byte) (self : DivertHandle) :
  set_filter f self =
    match f with
    | [] => (Return false, self)
    | _ :: _ =>
        let after :=
          with_trace (trace self ++ [Call_divert_update_ipfw f]) self in
        if Lib.divert_update_ipfw (trace self) f =? 0
        then (Return true, after)
        else (Raise (RuntimeError
                       ("Error rule: " ++ Lib.errmsg (trace after))%string),
              after)
    end.
Proof.
  unfold set_filter. destruct f as [| b f]; [reflexivity |].
  step_m. destruct (Lib.divert_update_ipfw (trace self) (b :: f) =? 0);
    reflexivity.
Qed.

(** [open] in closed form. *)
Lemma open_eq (self : DivertHandle) :
  open self =
    let started s :=
      with_trace (trace s ++ [Thread_start (_count s)])
        (with_thread (Some {| isAlive := true |}) s) in
    match _filter self with
    | [] => (Return tt, started self)
    | _ :: _ =>
        let after :=
          with_trace (trace self ++ [Call_divert_update_ipfw (_filter self)])
            self in
        if Lib.divert_update_ipfw (trace self) (_filter self) =? 0
        then (Return tt, started after)
        else (Raise (RuntimeError
                       ("Error rule: " ++ Lib.errmsg (trace after))%string),
              after)
    end.
Proof.
  destruct self as [po co fi fl q n t cl tr].
  unfold open. destruct fi as [| b f]; [reflexivity |].
  unfold bind at 1. unfold attr at 1. cbn [_filter].
  unfold bind at 1. unfold bind at 1.
  rewrite set_filter_eq. cbn [trace].
  destruct (Lib.divert_update_ipfw tr (b :: f) =? 0); reflexivity.
Qed.

(** X9. [open] starts the thread unless the filter is refused: with an
    empty filter, or one the engine accepts, the session gets a live
    thread and is not closed; when the engine refuses the filter, [open]
    raises "Error rule: ..." with the engine's message and no thread is
    started. *)
Theorem open_starts_thread_unless_filter_fails (self : DivertHandle) :
  let accepted :=
    match _filter self with
    | [] => true
    | _ :: _ => Lib.divert_update_ipfw (trace self) (_filter self) =? 0
    end in
  let install :=
    match _filter self with
    | [] => []
    | _ :: _ => [Call_divert_update_ipfw (_filter self)]
    end in
  (accepted = true ->
     fst (open self) = Return tt /\
     thread (snd (open self)) = Some {| isAlive := true |} /\
     fst (closed (snd (open self))) = Return false /\
     new_events self (snd (open self))
       = install ++ [Thread_start (_count self)]) /\
  (accepted = false ->
     fst (open self)
       = Raise (RuntimeError
                  ("Error rule: " ++ Lib.errmsg (trace self ++ install))%string)
     /\ thread (snd (open self)) = thread self /\
     new_events self (snd (open self)) = install).
Proof.
  intros accepted install. subst accepted install.
  unfold new_events. rewrite open_eq.
  destruct self as [po co fi fl q n t cl tr]. simpl.
  destruct fi as [| b f].
  - split; [intros _ | discriminate].
    unfold closed. step_m. repeat split. apply skipn_all_app.
  - destruct (Lib.divert_update_ipfw tr (b :: f) =? 0).
    + split; [intros _ | discriminate].
      unfold closed. step_m. repeat split.
      rewrite <- app_assoc. apply skipn_all_app.
    + split; [discriminate | intros _].
      simpl. repeat split. apply skipn_all_app.
Qed.

End Lifecycle.

Lemma open_starts_thread_unless_filter_fails_witness :
  (fst (@open Demo.lib Demo.fresh) = Return tt /\
   thread (snd (@open Demo.lib Demo.fresh)) = Some {| isAlive := true |}) /\
  (fst (@open DemoMore.failing_close
          (snd (@__init__ DemoMore.failing_close 0
                  (list_byte_of_string "tcp") 0 (-1))))
     = Raise (RuntimeError "Error rule: device busy") /\
   thread (snd (@open DemoMore.failing_close
                  (snd (@__init__ DemoMore.failing_close 0
                          (list_byte_of_string "tcp") 0 (-1))))) = None).
Proof.
  split.
  - destruct (proj1 (@open_starts_thread_unless_filter_fails Demo.lib
                       Demo.fresh) eq_refl) as [H1 [H2 _]].
    split; assumption.
  - destruct (proj2 (@open_starts_thread_unless_filter_fails
                       DemoMore.failing_close
                       (snd (@__init__ DemoMore.failing_close 0
                               (list_byte_of_string "tcp") 0 (-1))))
                eq_refl) as [H1 [H2 _]].
    split; assumption.
Defined.

Section Lifecycle2.

Context {defaults : Defaults} {ipheader : IpHeader} {_lib : Lib.t}.

Lemma filter_release_close_events (n : nat) (t : option Thread) :
  filter is_release (repeat (Queue_put_ev sentinel) n ++ stop_and_join t)
    = [].
Proof.
  rewrite filter_app.
  replace (filter is_release (repeat (Queue_put_ev sentinel) n))
    with (@nil event)
    by (induction n; simpl; auto).
  destruct t as [[[|]] |]; reflexivity.
Qed.

Lemma del_cleaned (self : DivertHandle) :
  _cleaned (snd (__del__ self)) = true.
Proof.
  unfold __del__. unfold bind at 1. rewrite close_eq.
  unfold bind at 1. unfold attr at 1. cbn [_cleaned with_thread
    with_packet_queue with_trace negb].
  destruct (_cleaned self) eqn:E; simpl.
  - exact E.
  - step_m. destruct (Lib.divert_close _ =? 0); reflexivity.
Qed.

Lemma del_new_events (self : DivertHandle) :
  new_events self (snd (__del__ self)) =
    (repeat (Queue_put_ev sentinel) (Z.to_nat (num_queued self))
       ++ stop_and_join (thread self))
    ++ (if _cleaned self then [] else [Call_divert_close]).
Proof.
  unfold new_events. rewrite del_trace, close_trace, <- !app_assoc.
  apply skipn_all_app.
Qed.

(** X10. The destructor releases the engine handle at most once, also
    when the release fails: the first [__del__] makes one release call
    unless the one-shot flag was already set, the flag is set afterwards
    whatever the engine replied, and a second [__del__] makes no release
    call. *)
Theorem destructor_releases_once (self : DivertHandle) :
  let once := snd (__del__ self) in
  filter is_release (new_events self once)
    = (if _cleaned self then [] else [Call_divert_close]) /\
  _cleaned once = true /\
  filter is_release (new_events once (snd (__del__ once))) = [].
Proof.
  intros once. subst once.
  split; [| split].
  - rewrite del_new_events, filter_app, filter_release_close_events.
    destruct (_cleaned self); reflexivity.
  - apply del_cleaned.
  - rewrite del_new_events, del_cleaned, app_nil_r.
    apply filter_release_close_events.
Qed.

End Lifecycle2.

Lemma queue_holds_sentinels_and_captures_witness :
  sentinel_or_capture (@captured Demo.defaults Demo.ipheader Demo.cap40).
Proof.
  refine (proj1
            (proj2 (@queue_holds_sentinels_and_captures Demo.defaults
                      Demo.ipheader Demo.lib 0 [] 0 (-1)
                      [Op_open; Op_callback Demo.cap40])
               true None _ _)).
  reflexivity.
Defined.

